(** * contests/2110/A/main.cpp: parity bounds and removal counts

    A shallow embedding of the contest solution in
    [src/contests/2110/A/main.cpp].  The program reads [t] test cases; for
    each one it reads [n] and a vector [a] of [n] ints, scans [a] once to
    obtain the minimum and maximum of the even and of the odd elements, then
    for each parity whose minimum is not the sentinel [INT_MAX] counts the
    elements of [a] lying outside that parity's [min, max] interval, and
    prints the smallest such count (starting from [n]).

    C++ [int] values are modelled as [Z] together with the range predicate
    [in_int]; no arithmetic of the program can leave that range (lemma
    [remove_fits_int]), so no wrap-around has to be written out. *)

From Stdlib Require Import ZArith List Lia Bool Permutation.
Import ListNotations.
Local Open Scope Z_scope.

(** ** Machine integers *)

Definition INT_MAX : Z := 2147483647.
Definition INT_MIN : Z := -2147483648.

Definition in_int (x : Z) : Prop := INT_MIN <= x <= INT_MAX.

Definition in_intb (x : Z) : bool := (INT_MIN <=? x) && (x <=? INT_MAX).

(** [if (x & 1)]: the branch is taken when the low bit is set. *)
Definition is_odd (x : Z) : bool := negb (Z.land x 1 =? 0).

(** ** The first pass: lines 21-33 *)

(** The four locals updated by the first loop. *)
Record Bounds : Set := mkBounds {
  minEven : Z;
  maxEven : Z;
  minOdd : Z;
  maxOdd : Z
}.

(** Lines 21-22. *)
Definition init_bounds : Bounds :=
  {| minEven := INT_MAX; maxEven := INT_MIN;
     minOdd := INT_MAX; maxOdd := INT_MIN |}.

(** The body of [for (int x : a)] at lines 26-32. *)
Definition scan_step (b : Bounds) (x : Z) : Bounds :=
  if is_odd x then
    {| minEven := minEven b; maxEven := maxEven b;
       minOdd := Z.min (minOdd b) x; maxOdd := Z.max (maxOdd b) x |}
  else
    {| minEven := Z.min (minEven b) x; maxEven := Z.max (maxEven b) x;
       minOdd := minOdd b; maxOdd := maxOdd b |}.

Definition scan_from (b : Bounds) (a : list Z) : Bounds :=
  fold_left scan_step a b.

Definition scan (a : list Z) : Bounds := scan_from init_bounds a.

(** ** The counting passes: lines 39-44 and 50-57 *)

(** [if (x < lo || x > hi) remove++;] *)
Definition count_step (lo hi : Z) (remove : Z) (x : Z) : Z :=
  if (x <? lo) || (x >? hi) then remove + 1 else remove.

Definition count_from (lo hi : Z) (remove : Z) (a : list Z) : Z :=
  fold_left (count_step lo hi) a remove.

(** [int remove = 0; for (int x : a) ...] *)
Definition count_outside (lo hi : Z) (a : list Z) : Z :=
  count_from lo hi 0 a.

Definition removeEven (a : list Z) : Z :=
  count_outside (minEven (scan a)) (maxEven (scan a)) a.

Definition removeOdd (a : list Z) : Z :=
  count_outside (minOdd (scan a)) (maxOdd (scan a)) a.

(** ** One test case: lines 21-60 *)

(** The value of [ans] after the even block (lines 35-46). *)
Definition after_even (n : Z) (a : list Z) : Z :=
  let ans := n in
  if negb (minEven (scan a) =? INT_MAX) then Z.min ans (removeEven a) else ans.

(** The printed value: [ans] after the odd block (lines 49-59). *)
Definition solve_case (n : Z) (a : list Z) : Z :=
  let ans := after_even n a in
  if negb (minOdd (scan a) =? INT_MAX) then Z.min ans (removeOdd a) else ans.

(** [vector<int> a(n)] has exactly [n] elements, so the value printed for the
    sequence [a] is [solve_case] at [n = a.size()]. *)
Definition answer (a : list Z) : Z := solve_case (Z.of_nat (length a)) a.

(** ** The batch loop: lines 12-62 *)

(** Result of running the program on a token stream.  The stream layer
    follows the program on well-formed streams, where every extraction
    succeeds.  [Undefined] marks the runs it does not follow: an extraction
    failed (the program itself then goes on with the stream in its failed
    state), the vector size is negative, or [t--] would overflow. *)
Inductive outcome (A : Type) : Type :=
| Done (v : A)
| Undefined
| OutOfFuel.

Arguments Done {A} v.
Arguments Undefined {A}.
Arguments OutOfFuel {A}.

(** [cin >> x] for an [int x] that succeeds: the next token, which has to
    fit an [int]; [None] when the extraction would fail. *)
Definition read_int (inp : list Z) : option (Z * list Z) :=
  match inp with
  | [] => None
  | x :: rest => if in_intb x then Some (x, rest) else None
  end.

(** [for (int &x : a) cin >> x;] over a vector of [k] elements, when all
    [k] extractions succeed. *)
Fixpoint read_vec (k : nat) (inp : list Z) : option (list Z * list Z) :=
  match k with
  | O => Some ([], inp)
  | S k' =>
      match read_int inp with
      | None => None
      | Some (x, rest) =>
          match read_vec k' rest with
          | None => None
          | Some (a, rest') => Some (x :: a, rest')
          end
      end
  end.

(** The body of the [while] loop, lines 15-60: reads one test case and
    returns the printed number with the rest of the input. *)
Definition test_case (inp : list Z) : option (Z * list Z) :=
  match read_int inp with
  | None => None
  | Some (n, inp1) =>
      if n <? 0 then None
      else
        match read_vec (Z.to_nat n) inp1 with
        | None => None
        | Some (a, inp2) => Some (solve_case n a, inp2)
        end
  end.

(** [while (t--) { ... }]: [out] collects the printed lines in order. *)
Fixpoint main_loop (fuel : nat) (t : Z) (inp : list Z) (out : list Z)
  : outcome (list Z) :=
  match fuel with
  | O => OutOfFuel
  | S fuel' =>
      if t =? 0 then Done out
      else if t - 1 <? INT_MIN then Undefined
      else
        match test_case inp with
        | None => Undefined
        | Some (ans, inp') => main_loop fuel' (t - 1) inp' (out ++ [ans])
        end
  end.

Definition main (fuel : nat) (inp : list Z) : outcome (list Z) :=
  match read_int inp with
  | None => Undefined
  | Some (t, inp') => main_loop fuel t inp' []
  end.

(** The token stream of a batch of test cases. *)
Definition encode_case (a : list Z) : list Z := Z.of_nat (length a) :: a.

Definition encode (cases : list (list Z)) : list Z :=
  Z.of_nat (length cases) :: flat_map encode_case cases.

(** A test case the program can receive: [n] fits an [int] and so does
    every element. *)
Definition valid_case (a : list Z) : Prop :=
  Z.of_nat (length a) <= INT_MAX /\ Forall in_int a.

Definition valid_batch (cases : list (list Z)) : Prop :=
  Z.of_nat (length cases) <= INT_MAX /\ Forall valid_case cases.

(** ** Declarative counterparts *)

(** [has_parity p x]: [x] is odd when [p = true], even when [p = false]. *)
Definition has_parity (p : bool) (x : Z) : bool := Bool.eqb (Z.odd x) p.

Definition parity_class (p : bool) (a : list Z) : list Z :=
  filter (has_parity p) a.

Definition count_of (f : Z -> bool) (a : list Z) : Z :=
  Z.of_nat (length (filter f a)).

Definition is_empty (l : list Z) : bool :=
  match l with [] => true | _ :: _ => false end.

(** The parities (even first, as in the program) that occur in [a]. *)
Definition nonempty_classes (a : list Z) : list bool :=
  filter (fun p => negb (is_empty (parity_class p a))) [false; true].

Fixpoint min_of (l : list Z) : option Z :=
  match l with
  | [] => None
  | x :: l' =>
      match min_of l' with
      | None => Some x
      | Some m => Some (Z.min x m)
      end
  end.

Fixpoint max_of (l : list Z) : option Z :=
  match l with
  | [] => None
  | x :: l' =>
      match max_of l' with
      | None => Some x
      | Some m => Some (Z.max x m)
      end
  end.

(** The specification's reading (section 4.1, step 2): keeping parity [p]
    removes the elements of the other parity, [n] minus the size of the
    class. *)
Definition claimed_candidate (a : list Z) (p : bool) : Z :=
  Z.of_nat (length a) - Z.of_nat (length (parity_class p a)).

Definition claimed_answer (a : list Z) : option Z :=
  min_of (map (claimed_candidate a) (nonempty_classes a)).

(** [x] lies strictly outside the closed interval from [lo] to [hi]. *)
Definition outside (lo hi : Z) (x : Z) : bool := (x <? lo) || (x >? hi).

(** Keeping parity [p] removes every element, of either parity, that lies
    outside the interval spanned by the class of [p]. *)
Definition interval_candidate (a : list Z) (p : bool) : Z :=
  match min_of (parity_class p a), max_of (parity_class p a) with
  | Some lo, Some hi => count_of (outside lo hi) a
  | _, _ => 0
  end.

Definition interval_answer (a : list Z) : option Z :=
  min_of (map (interval_candidate a) (nonempty_classes a)).

(** The odd class of [a], when it is not empty, has an element other than
    the sentinel [INT_MAX]. *)
Definition odd_class_visible (a : list Z) : Prop :=
  parity_class true a <> [] ->
  exists y, In y (parity_class true a) /\ y <> INT_MAX.

(** ** What the answer means *)

(** [subseq b a]: [b] is what is left of [a] after some of its elements, at
    any positions, have been removed. *)
Inductive subseq : list Z -> list Z -> Prop :=
| subseq_nil : subseq [] []
| subseq_keep (x : Z) (b a : list Z) : subseq b a -> subseq (x :: b) (x :: a)
| subseq_drop (x : Z) (b a : list Z) : subseq b a -> subseq b (x :: a).

(** The least and the greatest element of [b] exist and have the same
    parity, as the comments [even-evn] and [odd odd] of the two blocks
    name it. *)
Definition same_parity_ends (b : list Z) : bool :=
  match min_of b, max_of b with
  | Some lo, Some hi => Bool.eqb (Z.odd lo) (Z.odd hi)
  | _, _ => false
  end.

(** The elements a block keeps: those not outside the interval. *)
Definition kept (lo hi : Z) (a : list Z) : list Z :=
  filter (fun x => negb (outside lo hi x)) a.

(** ** Parity and ranges *)

Lemma is_odd_spec (x : Z) : is_odd x = Z.odd x.
Proof.
  unfold is_odd.
  change 1 with (Z.ones 1). rewrite Z.land_ones by lia.
  change (2 ^ 1) with 2. rewrite Zmod_odd.
  destruct (Z.odd x); reflexivity.
Qed.

Lemma has_parity_true (x : Z) : has_parity true x = is_odd x.
Proof. unfold has_parity. rewrite is_odd_spec. now destruct (Z.odd x). Qed.

Lemma has_parity_false (x : Z) : has_parity false x = negb (is_odd x).
Proof. unfold has_parity. rewrite is_odd_spec. now destruct (Z.odd x). Qed.

Lemma has_parity_negb (p : bool) (x : Z) :
  has_parity (negb p) x = negb (has_parity p x).
Proof. unfold has_parity. now destruct (Z.odd x), p. Qed.

Lemma in_intb_spec (x : Z) : in_intb x = true <-> in_int x.
Proof. unfold in_intb, in_int. rewrite andb_true_iff. lia. Qed.

Lemma even_below_INT_MAX (x : Z) :
  in_int x -> Z.odd x = false -> x < INT_MAX.
Proof.
  intros [_ Hle] Hodd.
  assert (x <> INT_MAX) by (intros ->; discriminate Hodd).
  lia.
Qed.

(** ** Minimum and maximum of a list *)

Lemma min_of_None (l : list Z) : min_of l = None <-> l = [].
Proof.
  destruct l as [|x l]; simpl; [tauto|].
  destruct (min_of l); split; discriminate.
Qed.

Lemma max_of_None (l : list Z) : max_of l = None <-> l = [].
Proof.
  destruct l as [|x l]; simpl; [tauto|].
  destruct (max_of l); split; discriminate.
Qed.

Lemma min_of_Some (l : list Z) (m : Z) :
  min_of l = Some m -> In m l /\ (forall x, In x l -> m <= x).
Proof.
  revert m. induction l as [|y l IH]; simpl; intros m Hm; [discriminate|].
  destruct (min_of l) as [m'|] eqn:E.
  - injection Hm as <-. destruct (IH m' eq_refl) as [Hin Hle]. split.
    + destruct (Z.min_spec y m') as [[_ ->]|[_ ->]]; auto.
    + intros x [<-|Hx]; [lia|]. specialize (Hle x Hx). lia.
  - injection Hm as <-. apply min_of_None in E. subst l. split; [now left|].
    intros x [<-|[]]. lia.
Qed.

Lemma max_of_Some (l : list Z) (m : Z) :
  max_of l = Some m -> In m l /\ (forall x, In x l -> x <= m).
Proof.
  revert m. induction l as [|y l IH]; simpl; intros m Hm; [discriminate|].
  destruct (max_of l) as [m'|] eqn:E.
  - injection Hm as <-. destruct (IH m' eq_refl) as [Hin Hle]. split.
    + destruct (Z.max_spec y m') as [[_ ->]|[_ ->]]; auto.
    + intros x [<-|Hx]; [lia|]. specialize (Hle x Hx). lia.
  - injection Hm as <-. apply max_of_None in E. subst l. split; [now left|].
    intros x [<-|[]]. lia.
Qed.

Lemma min_of_nonempty (l : list Z) : l <> [] -> exists m, min_of l = Some m.
Proof.
  intros Hl. destruct (min_of l) as [m|] eqn:E; [now exists m|].
  now apply min_of_None in E.
Qed.

Lemma max_of_nonempty (l : list Z) : l <> [] -> exists m, max_of l = Some m.
Proof.
  intros Hl. destruct (max_of l) as [m|] eqn:E; [now exists m|].
  now apply max_of_None in E.
Qed.

(** ** The first pass computes the bounds of the two classes *)

Lemma parity_class_cons (p : bool) (x : Z) (a : list Z) :
  parity_class p (x :: a) =
  if has_parity p x then x :: parity_class p a else parity_class p a.
Proof. reflexivity. Qed.

Lemma in_parity_class (p : bool) (x : Z) (a : list Z) :
  In x (parity_class p a) <-> In x a /\ has_parity p x = true.
Proof. unfold parity_class. apply filter_In. Qed.

Lemma scan_from_cons (b : Bounds) (x : Z) (a : list Z) :
  scan_from b (x :: a) = scan_from (scan_step b x) a.
Proof. reflexivity. Qed.

(** Steps the scan over the head [x] of the list, uses the induction
    hypothesis [IH] on the tail and splits on the parity of [x]. *)
Ltac scan_head x IH :=
  rewrite scan_from_cons, IH, parity_class_cons;
  first [rewrite has_parity_true | rewrite has_parity_false];
  unfold scan_step; destruct (is_odd x); simpl.

Lemma scan_from_minEven (a : list Z) (b : Bounds) :
  minEven (scan_from b a) =
  match min_of (parity_class false a) with
  | None => minEven b
  | Some m => Z.min (minEven b) m
  end.
Proof.
  revert b. induction a as [|x a IH]; intros b; [reflexivity|].
  scan_head x IH;
    destruct (min_of (parity_class false a)); simpl; lia.
Qed.

Lemma scan_from_maxEven (a : list Z) (b : Bounds) :
  maxEven (scan_from b a) =
  match max_of (parity_class false a) with
  | None => maxEven b
  | Some m => Z.max (maxEven b) m
  end.
Proof.
  revert b. induction a as [|x a IH]; intros b; [reflexivity|].
  scan_head x IH;
    destruct (max_of (parity_class false a)); simpl; lia.
Qed.

Lemma scan_from_minOdd (a : list Z) (b : Bounds) :
  minOdd (scan_from b a) =
  match min_of (parity_class true a) with
  | None => minOdd b
  | Some m => Z.min (minOdd b) m
  end.
Proof.
  revert b. induction a as [|x a IH]; intros b; [reflexivity|].
  scan_head x IH;
    destruct (min_of (parity_class true a)); simpl; lia.
Qed.

Lemma scan_from_maxOdd (a : list Z) (b : Bounds) :
  maxOdd (scan_from b a) =
  match max_of (parity_class true a) with
  | None => maxOdd b
  | Some m => Z.max (maxOdd b) m
  end.
Proof.
  revert b. induction a as [|x a IH]; intros b; [reflexivity|].
  scan_head x IH;
    destruct (max_of (parity_class true a)); simpl; lia.
Qed.

(** Every element of a class lies between the bounds the scan computed for
    that class; no range assumption is needed, the initial values only make
    the interval wider. *)
Lemma scan_bounds_even (a : list Z) (x : Z) :
  In x a -> is_odd x = false ->
  minEven (scan a) <= x <= maxEven (scan a).
Proof.
  intros Hin Hx.
  assert (Hc : In x (parity_class false a)).
  { apply in_parity_class. rewrite has_parity_false, Hx. auto. }
  unfold scan. rewrite scan_from_minEven, scan_from_maxEven.
  destruct (min_of (parity_class false a)) as [lo|] eqn:Elo;
    [|apply min_of_None in Elo; rewrite Elo in Hc; destruct Hc].
  destruct (max_of (parity_class false a)) as [hi|] eqn:Ehi;
    [|apply max_of_None in Ehi; rewrite Ehi in Hc; destruct Hc].
  apply min_of_Some in Elo. apply max_of_Some in Ehi.
  destruct Elo as [_ Hlo], Ehi as [_ Hhi].
  specialize (Hlo x Hc). specialize (Hhi x Hc). lia.
Qed.

Lemma scan_bounds_odd (a : list Z) (x : Z) :
  In x a -> is_odd x = true ->
  minOdd (scan a) <= x <= maxOdd (scan a).
Proof.
  intros Hin Hx.
  assert (Hc : In x (parity_class true a)).
  { apply in_parity_class. rewrite has_parity_true, Hx. auto. }
  unfold scan. rewrite scan_from_minOdd, scan_from_maxOdd.
  destruct (min_of (parity_class true a)) as [lo|] eqn:Elo;
    [|apply min_of_None in Elo; rewrite Elo in Hc; destruct Hc].
  destruct (max_of (parity_class true a)) as [hi|] eqn:Ehi;
    [|apply max_of_None in Ehi; rewrite Ehi in Hc; destruct Hc].
  apply min_of_Some in Elo. apply max_of_Some in Ehi.
  destruct Elo as [_ Hlo], Ehi as [_ Hhi].
  specialize (Hlo x Hc). specialize (Hhi x Hc). lia.
Qed.

(** On a vector of ints the initial values do not show in the bounds of a
    class that has an element. *)
Section InRange.

Variable a : list Z.
Hypothesis Hrange : Forall in_int a.

Lemma class_in_int (p : bool) (x : Z) : In x (parity_class p a) -> in_int x.
Proof.
  intros Hx. apply in_parity_class in Hx.
  rewrite Forall_forall in Hrange. now apply Hrange.
Qed.

Lemma scan_minEven_Some (m : Z) :
  min_of (parity_class false a) = Some m -> minEven (scan a) = m.
Proof.
  intros E. unfold scan. rewrite scan_from_minEven, E.
  apply min_of_Some in E. destruct E as [Hin _].
  apply class_in_int in Hin. unfold in_int in Hin. simpl. lia.
Qed.

Lemma scan_maxEven_Some (m : Z) :
  max_of (parity_class false a) = Some m -> maxEven (scan a) = m.
Proof.
  intros E. unfold scan. rewrite scan_from_maxEven, E.
  apply max_of_Some in E. destruct E as [Hin _].
  apply class_in_int in Hin. unfold in_int in Hin. simpl. lia.
Qed.

Lemma scan_minOdd_Some (m : Z) :
  min_of (parity_class true a) = Some m -> minOdd (scan a) = m.
Proof.
  intros E. unfold scan. rewrite scan_from_minOdd, E.
  apply min_of_Some in E. destruct E as [Hin _].
  apply class_in_int in Hin. unfold in_int in Hin. simpl. lia.
Qed.

Lemma scan_maxOdd_Some (m : Z) :
  max_of (parity_class true a) = Some m -> maxOdd (scan a) = m.
Proof.
  intros E. unfold scan. rewrite scan_from_maxOdd, E.
  apply max_of_Some in E. destruct E as [Hin _].
  apply class_in_int in Hin. unfold in_int in Hin. simpl. lia.
Qed.

(** The even guard is exact: [INT_MAX] is odd. *)
Lemma even_guard_exact :
  minEven (scan a) <> INT_MAX <-> parity_class false a <> [].
Proof.
  destruct (min_of (parity_class false a)) as [m|] eqn:E.
  - rewrite (scan_minEven_Some m E).
    pose proof (min_of_Some _ _ E) as [Hin _].
    pose proof (class_in_int _ _ Hin) as Hm.
    apply in_parity_class in Hin. destruct Hin as [_ Hp].
    unfold has_parity in Hp. apply eqb_prop in Hp.
    pose proof (even_below_INT_MAX m Hm Hp).
    split; [|lia]. intros _ Hnil. rewrite Hnil in E. discriminate E.
  - unfold scan. rewrite scan_from_minEven, E. simpl.
    apply min_of_None in E. rewrite E. tauto.
Qed.

(** The odd guard sees the class only through an element below
    [INT_MAX]. *)
Lemma odd_guard_exact :
  minOdd (scan a) <> INT_MAX <->
  exists y, In y (parity_class true a) /\ y <> INT_MAX.
Proof.
  destruct (min_of (parity_class true a)) as [m|] eqn:E.
  - rewrite (scan_minOdd_Some m E).
    pose proof (min_of_Some _ _ E) as [Hin Hle].
    split.
    + intros Hm. now exists m.
    + intros (y & Hy & Hne). specialize (Hle y Hy).
      apply class_in_int in Hy. unfold in_int in Hy. lia.
  - unfold scan. rewrite scan_from_minOdd, E. simpl.
    apply min_of_None in E. rewrite E.
    split; [tauto|]. intros (y & [] & _).
Qed.

End InRange.

(** ** The counting passes *)

Lemma count_of_cons (f : Z -> bool) (x : Z) (a : list Z) :
  count_of f (x :: a) = (if f x then 1 else 0) + count_of f a.
Proof.
  unfold count_of. simpl. destruct (f x); simpl length; lia.
Qed.

Lemma count_from_spec (lo hi : Z) (a : list Z) (r : Z) :
  count_from lo hi r a = r + count_of (outside lo hi) a.
Proof.
  revert r. induction a as [|x a IH]; intros r.
  - unfold count_of. simpl. lia.
  - unfold count_from in *. simpl fold_left. rewrite IH, count_of_cons.
    unfold count_step, outside. destruct ((x <? lo) || (x >? hi)); lia.
Qed.

Lemma count_outside_spec (lo hi : Z) (a : list Z) :
  count_outside lo hi a = count_of (outside lo hi) a.
Proof. unfold count_outside. rewrite count_from_spec. lia. Qed.

Lemma count_of_bounds (f : Z -> bool) (a : list Z) :
  0 <= count_of f a <= Z.of_nat (length a).
Proof.
  unfold count_of. pose proof (filter_length_le f a). lia.
Qed.

Lemma count_of_split (f : Z -> bool) (p : bool) (a : list Z) :
  count_of f a =
  count_of f (parity_class p a) + count_of f (parity_class (negb p) a).
Proof.
  induction a as [|x a IH]; [reflexivity|].
  rewrite !parity_class_cons, has_parity_negb, count_of_cons, IH.
  destruct (has_parity p x); simpl; rewrite count_of_cons; lia.
Qed.

Lemma count_of_none (f : Z -> bool) (l : list Z) :
  (forall x, In x l -> f x = false) -> count_of f l = 0.
Proof.
  intros H. unfold count_of.
  induction l as [|x l IH]; [reflexivity|]. simpl.
  rewrite (H x (or_introl eq_refl)). apply IH.
  intros y Hy. apply H. now right.
Qed.

Lemma length_split (p : bool) (a : list Z) :
  Z.of_nat (length a) =
  Z.of_nat (length (parity_class p a)) +
  Z.of_nat (length (parity_class (negb p) a)).
Proof.
  induction a as [|x a IH]; [reflexivity|].
  rewrite !parity_class_cons, has_parity_negb.
  destruct (has_parity p x); simpl length; lia.
Qed.

(** The counter of either pass never leaves the range of [int]: it stays
    between [0] and [n]. *)
Lemma remove_fits_int (lo hi : Z) (a : list Z) :
  Z.of_nat (length a) <= INT_MAX -> in_int (count_outside lo hi a).
Proof.
  intros Hn. rewrite count_outside_spec.
  pose proof (count_of_bounds (outside lo hi) a).
  unfold in_int, INT_MIN. lia.
Qed.

(** ** The candidates of the two blocks *)

Lemma interval_candidate_bounds (a : list Z) (p : bool) :
  0 <= interval_candidate a p <= Z.of_nat (length a).
Proof.
  unfold interval_candidate.
  destruct (min_of (parity_class p a)), (max_of (parity_class p a));
    try apply count_of_bounds; lia.
Qed.

(** Elements of the class itself are never outside its interval, so the
    candidate counts elements of the other parity only. *)
Lemma interval_candidate_opposite (a : list Z) (p : bool) :
  interval_candidate a p =
  match min_of (parity_class p a), max_of (parity_class p a) with
  | Some lo, Some hi => count_of (outside lo hi) (parity_class (negb p) a)
  | _, _ => 0
  end.
Proof.
  unfold interval_candidate.
  destruct (min_of (parity_class p a)) as [lo|] eqn:Elo; [|reflexivity].
  destruct (max_of (parity_class p a)) as [hi|] eqn:Ehi; [|reflexivity].
  rewrite (count_of_split _ p a).
  rewrite (count_of_none (outside lo hi) (parity_class p a)); [lia|].
  intros x Hx. apply min_of_Some in Elo. apply max_of_Some in Ehi.
  destruct Elo as [_ Hlo], Ehi as [_ Hhi].
  specialize (Hlo x Hx). specialize (Hhi x Hx).
  unfold outside. apply orb_false_iff. split; lia.
Qed.

Lemma interval_le_claimed (a : list Z) (p : bool) :
  interval_candidate a p <= claimed_candidate a p.
Proof.
  rewrite interval_candidate_opposite. unfold claimed_candidate.
  rewrite (length_split p a).
  destruct (min_of (parity_class p a)) as [lo|]; [|lia].
  destruct (max_of (parity_class p a)) as [hi|]; [|lia].
  pose proof (count_of_bounds (outside lo hi) (parity_class (negb p) a)).
  lia.
Qed.

Section Candidates.

Variable a : list Z.
Hypothesis Hrange : Forall in_int a.

Lemma removeEven_interval :
  parity_class false a <> [] -> removeEven a = interval_candidate a false.
Proof.
  intros Hne. unfold removeEven, interval_candidate.
  destruct (min_of_nonempty _ Hne) as [lo Elo].
  destruct (max_of_nonempty _ Hne) as [hi Ehi].
  rewrite Elo, Ehi, (scan_minEven_Some a Hrange lo Elo),
    (scan_maxEven_Some a Hrange hi Ehi).
  apply count_outside_spec.
Qed.

Lemma removeOdd_interval :
  parity_class true a <> [] -> removeOdd a = interval_candidate a true.
Proof.
  intros Hne. unfold removeOdd, interval_candidate.
  destruct (min_of_nonempty _ Hne) as [lo Elo].
  destruct (max_of_nonempty _ Hne) as [hi Ehi].
  rewrite Elo, Ehi, (scan_minOdd_Some a Hrange lo Elo),
    (scan_maxOdd_Some a Hrange hi Ehi).
  apply count_outside_spec.
Qed.

Lemma even_guard_taken :
  parity_class false a <> [] ->
  negb (minEven (scan a) =? INT_MAX) = true.
Proof.
  intros Hne. apply (even_guard_exact a Hrange) in Hne.
  apply negb_true_iff, Z.eqb_neq, Hne.
Qed.

Lemma even_guard_skipped :
  parity_class false a = [] ->
  negb (minEven (scan a) =? INT_MAX) = false.
Proof.
  intros Hnil. apply negb_false_iff, Z.eqb_eq.
  destruct (Z.eq_dec (minEven (scan a)) INT_MAX) as [E|E]; [exact E|].
  apply (even_guard_exact a Hrange) in E. contradiction.
Qed.

Lemma odd_guard_taken :
  (exists y, In y (parity_class true a) /\ y <> INT_MAX) ->
  negb (minOdd (scan a) =? INT_MAX) = true.
Proof.
  intros Hex. apply (odd_guard_exact a Hrange) in Hex.
  apply negb_true_iff, Z.eqb_neq, Hex.
Qed.

Lemma odd_guard_skipped :
  (forall y, In y (parity_class true a) -> y = INT_MAX) ->
  negb (minOdd (scan a) =? INT_MAX) = false.
Proof.
  intros Hall. apply negb_false_iff, Z.eqb_eq.
  destruct (Z.eq_dec (minOdd (scan a)) INT_MAX) as [E|E]; [exact E|].
  apply (odd_guard_exact a Hrange) in E.
  destruct E as (y & Hy & Hne). now apply Hall in Hy.
Qed.

(** The value of [ans] after the even block. *)
Lemma after_even_spec :
  after_even (Z.of_nat (length a)) a =
  if is_empty (parity_class false a) then Z.of_nat (length a)
  else interval_candidate a false.
Proof.
  unfold after_even.
  destruct (parity_class false a) as [|x l] eqn:E; simpl is_empty; cbv zeta.
  - now rewrite (even_guard_skipped E).
  - assert (Hne : parity_class false a <> []) by (rewrite E; discriminate).
    rewrite (even_guard_taken Hne), (removeEven_interval Hne).
    pose proof (interval_candidate_bounds a false). lia.
Qed.

End Candidates.

(** Every element is in one of the two classes. *)
Lemma classes_cover (a : list Z) :
  parity_class false a = [] -> parity_class true a = [] -> a = [].
Proof.
  destruct a as [|x a]; [reflexivity|].
  rewrite !parity_class_cons. unfold has_parity.
  destruct (Z.odd x); simpl; discriminate.
Qed.

(** ** Reading a batch *)

Lemma read_vec_app (a rest : list Z) :
  Forall in_int a -> read_vec (length a) (a ++ rest) = Some (a, rest).
Proof.
  induction 1 as [|x a Hx Ha IH]; [reflexivity|].
  simpl. apply in_intb_spec in Hx. now rewrite Hx, IH.
Qed.

Lemma length_in_int (A : Type) (l : list A) :
  Z.of_nat (length l) <= INT_MAX -> in_intb (Z.of_nat (length l)) = true.
Proof. intros H. apply in_intb_spec. unfold in_int, INT_MIN. lia. Qed.

Lemma test_case_encode (a rest : list Z) :
  valid_case a -> test_case (encode_case a ++ rest) = Some (answer a, rest).
Proof.
  intros [Hn Ha]. unfold test_case, encode_case. simpl.
  rewrite (length_in_int _ a Hn).
  destruct (Z.ltb_spec (Z.of_nat (length a)) 0) as [E|E]; [lia|].
  now rewrite Nat2Z.id, read_vec_app.
Qed.

Lemma main_loop_batch (cases : list (list Z)) :
  forall (fuel : nat) (out : list Z),
    Z.of_nat (length cases) <= INT_MAX ->
    Forall valid_case cases ->
    (length cases < fuel)%nat ->
    main_loop fuel (Z.of_nat (length cases)) (flat_map encode_case cases) out
    = Done (out ++ map answer cases).
Proof.
  induction cases as [|c cases IH]; intros fuel out Hlen Hall Hfuel.
  - destruct fuel; [lia|]. simpl. now rewrite app_nil_r.
  - destruct fuel as [|fuel]; [simpl in Hfuel; lia|].
    inversion Hall as [|? ? Hc Hcs]; subst.
    cbn [main_loop flat_map length].
    destruct (Z.eqb_spec (Z.of_nat (S (length cases))) 0) as [E0|E0]; [lia|].
    destruct (Z.ltb_spec (Z.of_nat (S (length cases)) - 1) INT_MIN)
      as [E1|E1]; [unfold INT_MIN in E1; lia|].
    rewrite (test_case_encode c _ Hc).
    replace (Z.of_nat (S (length cases)) - 1) with (Z.of_nat (length cases))
      by lia.
    rewrite IH; [|simpl length in Hlen; lia|assumption|simpl in Hfuel; lia].
    now rewrite <- app_assoc.
Qed.

(** With more fuel than test cases the program prints the answer of each
    test case, in order. *)
Lemma main_batch (cases : list (list Z)) (fuel : nat) :
  valid_batch cases -> (length cases < fuel)%nat ->
  main fuel (encode cases) = Done (map answer cases).
Proof.
  intros [Hlen Hall] Hfuel. unfold main, encode, read_int.
  rewrite (length_in_int _ cases Hlen).
  now rewrite main_loop_batch.
Qed.

(** ** The printed answer *)

Lemma is_empty_true (l : list Z) : is_empty l = true <-> l = [].
Proof. destruct l; simpl; split; try discriminate; reflexivity. Qed.

Lemma is_empty_false (l : list Z) : is_empty l = false <-> l <> [].
Proof. destruct l; simpl; split; try discriminate; congruence. Qed.

Lemma answer_by_classes (a : list Z) :
  Forall in_int a -> odd_class_visible a ->
  answer a =
  match is_empty (parity_class false a), is_empty (parity_class true a) with
  | true, true => Z.of_nat (length a)
  | false, true => interval_candidate a false
  | true, false => interval_candidate a true
  | false, false =>
      Z.min (interval_candidate a false) (interval_candidate a true)
  end.
Proof.
  intros Hrange Hvis. unfold answer, solve_case. cbv zeta.
  rewrite (after_even_spec a Hrange).
  pose proof (interval_candidate_bounds a false) as Hf.
  pose proof (interval_candidate_bounds a true) as Ht.
  destruct (is_empty (parity_class true a)) eqn:Et.
  - apply is_empty_true in Et.
    rewrite (odd_guard_skipped a Hrange).
    + now destruct (is_empty (parity_class false a)).
    + rewrite Et. intros y [].
  - apply is_empty_false in Et.
    rewrite (odd_guard_taken a Hrange (Hvis Et)).
    rewrite (removeOdd_interval a Hrange Et).
    destruct (is_empty (parity_class false a)); lia.
Qed.

Lemma uniform_parity_classes (a : list Z) (p : bool) :
  (forall x, In x a -> Z.odd x = p) ->
  parity_class p a = a /\ parity_class (negb p) a = [].
Proof.
  induction a as [|x a IH]; intros H; [split; reflexivity|].
  destruct IH as [IH1 IH2]; [intros y Hy; apply H; now right|].
  rewrite !parity_class_cons, has_parity_negb, IH1, IH2.
  unfold has_parity. rewrite (H x (or_introl eq_refl)), eqb_reflx.
  split; reflexivity.
Qed.

Lemma filter_is_odd (a : list Z) : filter is_odd a = parity_class true a.
Proof.
  unfold parity_class. apply filter_ext. intros x.
  symmetry. apply has_parity_true.
Qed.

Lemma filter_not_odd (a : list Z) :
  filter (fun x => negb (is_odd x)) a = parity_class false a.
Proof.
  unfold parity_class. apply filter_ext. intros x.
  symmetry. apply has_parity_false.
Qed.

Lemma nth_error_map_middle (A B : Type) (f : A -> B)
  (pre post : list A) (c : A) :
  nth_error (map f (pre ++ c :: post)) (length pre) = Some (f c).
Proof. induction pre as [|x pre IH]; [reflexivity|exact IH]. Qed.

(** Discharges [in_int], [Forall in_int], [valid_case] and [valid_batch] at
    closed inputs. *)
Ltac closed_range :=
  repeat first
    [ apply Forall_nil
    | apply Forall_cons
    | split
    | progress (unfold valid_batch, valid_case, in_int, INT_MIN, INT_MAX;
                simpl length)
    | lia ].

(** * The claims *)

(** C1, as amended.  For every non-empty sequence of ints whose odd
    elements, if there are any, are not all equal to [INT_MAX], the printed
    answer is the minimum, over the non-empty parity classes, of the number
    of elements of the sequence (of either parity) that lie outside the
    interval from the least to the greatest element of that class.  Each
    block's counter is that number, and it is at most, not always equal to,
    the number of elements of the opposite parity. *)
Theorem answer_min_interval_count (a : list Z) :
  a <> [] -> Forall in_int a -> odd_class_visible a ->
  interval_answer a = Some (answer a) /\
  (parity_class false a <> [] -> removeEven a = interval_candidate a false) /\
  (parity_class true a <> [] -> removeOdd a = interval_candidate a true) /\
  (forall p, In p (nonempty_classes a) ->
     interval_candidate a p <= claimed_candidate a p).
Proof.
  intros Hne Hrange Hvis. repeat split.
  - rewrite (answer_by_classes a Hrange Hvis).
    unfold interval_answer, nonempty_classes. simpl filter.
    destruct (is_empty (parity_class false a)) eqn:Ef;
      destruct (is_empty (parity_class true a)) eqn:Et; simpl; try reflexivity.
    apply is_empty_true in Ef, Et. now destruct Hne; apply classes_cover.
  - apply removeEven_interval, Hrange.
  - apply removeOdd_interval, Hrange.
  - intros p _. apply interval_le_claimed.
Qed.

Lemma answer_min_interval_count_witness :
  interval_answer [1; 2; 3] = Some (answer [1; 2; 3]).
Proof.
  refine (proj1 (answer_min_interval_count [1; 2; 3] _ _ _)).
  - discriminate.
  - closed_range.
  - intros _. exists 1. split; [now left|discriminate].
Defined.

(** C1, as stated, fails on [1; 2; 3]: the claimed minimum of the sizes of
    the opposite classes is 1, the program prints 0. *)
Lemma claimed_answer_refuted :
  [1; 2; 3] <> [] /\ Forall in_int [1; 2; 3] /\
  claimed_answer [1; 2; 3] = Some 1 /\ answer [1; 2; 3] = 0 /\
  claimed_answer [1; 2; 3] <> Some (answer [1; 2; 3]).
Proof.
  split; [discriminate|]. split; [closed_range|].
  split; [reflexivity|]. split; [reflexivity|vm_compute; discriminate].
Qed.

(** The assumption on the odd class cannot be dropped: when the only odd
    elements are copies of [INT_MAX] the odd block is skipped. *)
Example sentinel_hides_odd_class :
  interval_answer [2147483647; 2147483647; 2] = Some 1 /\
  answer [2147483647; 2147483647; 2] = 2.
Proof. split; reflexivity. Qed.

(** C2, as amended.  For the sequence [1; 3; 5; 2; 4] the program prints 0:
    the odd interval from 1 to 5 holds every element (count 0), the even
    interval from 2 to 4 leaves 1 and 5 outside (count 2), and the minimum
    is taken. *)
Theorem sample_five_prints_zero :
  removeOdd [1; 3; 5; 2; 4] = 0 /\
  removeEven [1; 3; 5; 2; 4] = 2 /\
  answer [1; 3; 5; 2; 4] = 0 /\
  forall k : nat, main (2 + k) [1; 5; 1; 3; 5; 2; 4] = Done [0].
Proof. repeat split. Qed.

(** C2, as stated, fails: the program does not print 2. *)
Lemma sample_five_not_two :
  answer [1; 3; 5; 2; 4] <> 2 /\
  main 2 [1; 5; 1; 3; 5; 2; 4] <> Done [2].
Proof. split; vm_compute; discriminate. Qed.

(** C3, as amended.  For the sequence [1; 2; 3] the program prints 0: the
    odd interval from 1 to 3 holds the even element 2 as well (count 0),
    the even interval from 2 to 2 leaves 1 and 3 outside (count 2), and the
    minimum is taken. *)
Theorem sample_three_prints_zero :
  removeOdd [1; 2; 3] = 0 /\
  removeEven [1; 2; 3] = 2 /\
  answer [1; 2; 3] = 0 /\
  forall k : nat, main (2 + k) [1; 3; 1; 2; 3] = Done [0].
Proof. repeat split. Qed.

(** C3, as stated, fails: the program does not print 1. *)
Lemma sample_three_not_one :
  answer [1; 2; 3] <> 1 /\
  main 2 [1; 3; 1; 2; 3] <> Done [1].
Proof. split; vm_compute; discriminate. Qed.

(** Away from the sentinel value a sequence of length 1 prints 0: for
    every single int other than [INT_MAX] the block of its parity runs and
    counts nothing. *)
Theorem singleton_prints_zero (x : Z) :
  in_int x -> x <> INT_MAX -> answer [x] = 0.
Proof.
  intros Hx Hne.
  assert (Hout : count_of (outside x x) [x] = 0).
  { apply count_of_none. intros y [<-|[]]. unfold outside.
    apply orb_false_iff. split; lia. }
  rewrite answer_by_classes.
  - unfold interval_candidate. rewrite !parity_class_cons.
    unfold has_parity. destruct (Z.odd x); simpl; exact Hout.
  - now constructor.
  - intros Hc. exists x. split; [|exact Hne].
    apply in_parity_class. split; [now left|].
    rewrite parity_class_cons in Hc.
    destruct (has_parity true x); [reflexivity|now destruct Hc].
Qed.

Lemma singleton_prints_zero_witness : answer [7] = 0.
Proof.
  apply (singleton_prints_zero 7); [closed_range|discriminate].
Defined.

(** C4 says that every sequence of length 1 prints 0; the program breaks
    it at the single int 2147483647.  There the odd minimum computed by the
    first pass equals its initial value [INT_MAX], the presence test of the
    odd block takes the class for empty, no block runs and [n = 1] is
    printed, although nothing has to be removed (the least and the greatest
    element are the same number).  The even block has no such gap: the
    single int -2147483648 prints 0. *)
Theorem singleton_int_max_prints_one :
  in_int 2147483647 /\
  minOdd (scan [2147483647]) = INT_MAX /\
  answer [2147483647] = 1 /\
  answer [2147483647] <> 0 /\
  main 2 [1; 1; 2147483647] = Done [1] /\
  same_parity_ends [2147483647] = true /\
  answer [-2147483648] = 0.
Proof.
  split; [closed_range|].
  split; [reflexivity|]. split; [reflexivity|].
  split; [vm_compute; discriminate|].
  repeat split.
Qed.

(** Away from the sentinel value a sequence of one parity prints 0: for
    every non-empty sequence of ints that all have the same parity and are
    not all equal to [INT_MAX], the block of that parity runs and counts
    nothing. *)
Theorem uniform_parity_prints_zero (a : list Z) :
  a <> [] -> Forall in_int a ->
  (exists p, forall x, In x a -> Z.odd x = p) ->
  (exists x, In x a /\ x <> INT_MAX) ->
  answer a = 0.
Proof.
  intros Hne Hrange [p Hp] (y & Hy & HyM).
  destruct (uniform_parity_classes a p Hp) as [Hsame Hother].
  assert (Hvis : odd_class_visible a).
  { intros Hc. exists y. split; [|exact HyM].
    destruct p; [now rewrite Hsame|now destruct Hc]. }
  rewrite (answer_by_classes a Hrange Hvis).
  assert (Hcand : interval_candidate a p = 0).
  { rewrite interval_candidate_opposite, Hother.
    now destruct (min_of (parity_class p a)), (max_of (parity_class p a)). }
  apply is_empty_true in Hother. apply is_empty_false in Hne.
  rewrite <- Hsame in Hne.
  destruct p; simpl negb in Hother; rewrite Hother, Hne; exact Hcand.
Qed.

Lemma uniform_parity_prints_zero_witness : answer [2; 4; 6; 8] = 0.
Proof.
  apply (uniform_parity_prints_zero [2; 4; 6; 8]).
  - discriminate.
  - closed_range.
  - exists false. simpl. intros x H.
    repeat (destruct H as [<-|H]; [reflexivity|]). destruct H.
  - exists 2. split; [now left|discriminate].
Defined.

(** C5 says that every non-empty sequence of one parity prints 0; the
    program breaks it on two copies of 2147483647.  Both are odd, the odd
    minimum equals its initial value [INT_MAX], the presence test of the
    odd block takes the class for empty and [n = 2] is printed, although
    nothing has to be removed.  The even block has no such gap: two copies
    of -2147483648 print 0. *)
Theorem uniform_int_max_prints_n :
  [2147483647; 2147483647] <> [] /\
  Forall in_int [2147483647; 2147483647] /\
  (forall x, In x [2147483647; 2147483647] -> Z.odd x = true) /\
  minOdd (scan [2147483647; 2147483647]) = INT_MAX /\
  answer [2147483647; 2147483647] = 2 /\
  answer [2147483647; 2147483647] <> 0 /\
  main 2 [1; 2; 2147483647; 2147483647] = Done [2] /\
  same_parity_ends [2147483647; 2147483647] = true /\
  answer [-2147483648; -2147483648] = 0.
Proof.
  split; [discriminate|]. split; [closed_range|]. split.
  - simpl. intros x H.
    repeat (destruct H as [<-|H]; [reflexivity|]). destruct H.
  - split; [reflexivity|]. split; [reflexivity|].
    split; [vm_compute; discriminate|]. repeat split.
Qed.

(** C6.  Every element of the sequence lies between the minimum and the
    maximum that the first pass computed for the class of its own parity;
    hence each counting pass counts no element of its own class, and its
    counter is the number of elements of the other parity outside the
    interval. *)
Theorem class_within_own_bounds (a : list Z) :
  (forall x, In x a -> is_odd x = true ->
     minOdd (scan a) <= x <= maxOdd (scan a)) /\
  (forall x, In x a -> is_odd x = false ->
     minEven (scan a) <= x <= maxEven (scan a)) /\
  count_outside (minOdd (scan a)) (maxOdd (scan a)) (filter is_odd a) = 0 /\
  count_outside (minEven (scan a)) (maxEven (scan a))
    (filter (fun x => negb (is_odd x)) a) = 0 /\
  removeOdd a =
    count_outside (minOdd (scan a)) (maxOdd (scan a))
      (filter (fun x => negb (is_odd x)) a) /\
  removeEven a =
    count_outside (minEven (scan a)) (maxEven (scan a)) (filter is_odd a).
Proof.
  assert (Hodd : count_outside (minOdd (scan a)) (maxOdd (scan a))
                   (filter is_odd a) = 0).
  { rewrite count_outside_spec. apply count_of_none. intros x Hx.
    apply filter_In in Hx. destruct Hx as [Hin Hp].
    pose proof (scan_bounds_odd a x Hin Hp).
    unfold outside. apply orb_false_iff. split; lia. }
  assert (Heven : count_outside (minEven (scan a)) (maxEven (scan a))
                    (filter (fun x => negb (is_odd x)) a) = 0).
  { rewrite count_outside_spec. apply count_of_none. intros x Hx.
    apply filter_In in Hx. destruct Hx as [Hin Hp].
    apply negb_true_iff in Hp.
    pose proof (scan_bounds_even a x Hin Hp).
    unfold outside. apply orb_false_iff. split; lia. }
  split; [exact (scan_bounds_odd a)|].
  split; [exact (scan_bounds_even a)|].
  split; [exact Hodd|]. split; [exact Heven|].
  rewrite !count_outside_spec in *.
  rewrite filter_is_odd, filter_not_odd in *.
  unfold removeOdd, removeEven. rewrite !count_outside_spec. split.
  - rewrite (count_of_split _ true a), Hodd. simpl negb. lia.
  - rewrite (count_of_split _ false a), Heven. simpl negb. lia.
Qed.

Lemma class_within_own_bounds_witness :
  minOdd (scan [1; 2; 3]) <= 3 <= maxOdd (scan [1; 2; 3]) /\
  minEven (scan [1; 2; 3]) <= 2 <= maxEven (scan [1; 2; 3]).
Proof.
  split.
  - apply (proj1 (class_within_own_bounds [1; 2; 3]) 3);
      [simpl; auto|reflexivity].
  - apply (proj1 (proj2 (class_within_own_bounds [1; 2; 3])) 2);
      [simpl; auto|reflexivity].
Defined.

(** C7.  The number printed for a test case is a function of that test
    case alone: in any two valid batches that contain the sequence [c],
    whatever test cases come before or after it and whatever fuel above the
    batch length is given, the program terminates and the line printed for
    [c] is the same number, [answer c]. *)
Theorem answer_independent_of_batch
  (pre1 post1 pre2 post2 : list (list Z)) (c : list Z) (fuel1 fuel2 : nat) :
  valid_batch (pre1 ++ c :: post1) ->
  valid_batch (pre2 ++ c :: post2) ->
  (length (pre1 ++ c :: post1) < fuel1)%nat ->
  (length (pre2 ++ c :: post2) < fuel2)%nat ->
  exists out1 out2 : list Z,
    main fuel1 (encode (pre1 ++ c :: post1)) = Done out1 /\
    main fuel2 (encode (pre2 ++ c :: post2)) = Done out2 /\
    nth_error out1 (length pre1) = Some (answer c) /\
    nth_error out2 (length pre2) = Some (answer c) /\
    nth_error out1 (length pre1) = nth_error out2 (length pre2).
Proof.
  intros Hv1 Hv2 Hf1 Hf2.
  exists (map answer (pre1 ++ c :: post1)), (map answer (pre2 ++ c :: post2)).
  rewrite !nth_error_map_middle.
  repeat split; now apply main_batch.
Qed.

Lemma answer_independent_of_batch_witness :
  exists out1 out2 : list Z,
    main 3 (encode ([] ++ [1; 2; 3] :: [[5]])) = Done out1 /\
    main 3 (encode ([[2; 4]] ++ [1; 2; 3] :: [])) = Done out2 /\
    nth_error out1 0 = Some (answer [1; 2; 3]) /\
    nth_error out2 1 = Some (answer [1; 2; 3]) /\
    nth_error out1 0 = nth_error out2 1.
Proof.
  apply (answer_independent_of_batch [] [[5]] [[2; 4]] [] [1; 2; 3] 3 3).
  - closed_range.
  - closed_range.
  - simpl. lia.
  - simpl. lia.
Defined.

(** C8.  On a test case with [n = 0] the vector is empty, both minima keep
    the sentinel value, neither block runs, and the program prints 0, the
    initial value [n] of [ans]; the run is defined. *)
Theorem empty_case_prints_zero :
  minEven (scan []) = INT_MAX /\
  minOdd (scan []) = INT_MAX /\
  solve_case 0 [] = 0 /\
  answer [] = 0 /\
  (forall rest : list Z, test_case (0 :: rest) = Some (0, rest)) /\
  (forall k : nat, main (2 + k) [1; 0] = Done [0]).
Proof. repeat split. Qed.

(** C9.  The printed answer lies between 0 and [n]: both counters do, the
    value after the even block is at most [n], and the odd block can only
    lower it. *)
Theorem answer_between_zero_and_n (a : list Z) :
  0 <= removeEven a <= Z.of_nat (length a) /\
  0 <= removeOdd a <= Z.of_nat (length a) /\
  after_even (Z.of_nat (length a)) a <= Z.of_nat (length a) /\
  answer a <= after_even (Z.of_nat (length a)) a /\
  0 <= answer a <= Z.of_nat (length a).
Proof.
  assert (He : 0 <= removeEven a <= Z.of_nat (length a)).
  { unfold removeEven. rewrite count_outside_spec. apply count_of_bounds. }
  assert (Ho : 0 <= removeOdd a <= Z.of_nat (length a)).
  { unfold removeOdd. rewrite count_outside_spec. apply count_of_bounds. }
  split; [exact He|]. split; [exact Ho|].
  unfold answer, solve_case, after_even. cbv zeta.
  destruct (negb (minEven (scan a) =? INT_MAX));
    destruct (negb (minOdd (scan a) =? INT_MAX)); lia.
Qed.

(** C10.  Each block runs exactly when the minimum computed for its class
    differs from [INT_MAX].  On a vector of ints the even minimum differs
    from [INT_MAX] exactly when an even element exists, while the odd
    minimum differs from it exactly when some odd element is not
    [INT_MAX]; so when all odd elements equal [INT_MAX] the odd block adds
    no candidate and the printed value is the one left by the even block. *)
Theorem sentinel_guards (a : list Z) :
  Forall in_int a ->
  (forall n, after_even n a =
     if minEven (scan a) =? INT_MAX then n else Z.min n (removeEven a)) /\
  (forall n, solve_case n a =
     if minOdd (scan a) =? INT_MAX then after_even n a
     else Z.min (after_even n a) (removeOdd a)) /\
  (minEven (scan a) <> INT_MAX <-> exists x, In x a /\ is_odd x = false) /\
  (minOdd (scan a) <> INT_MAX <->
     exists x, In x a /\ is_odd x = true /\ x <> INT_MAX) /\
  ((forall x, In x a -> is_odd x = true -> x = INT_MAX) ->
     minOdd (scan a) = INT_MAX /\
     forall n, solve_case n a = after_even n a).
Proof.
  intros Hrange.
  assert (Hskip : (forall x, In x a -> is_odd x = true -> x = INT_MAX) ->
                  negb (minOdd (scan a) =? INT_MAX) = false).
  { intros Hall. apply (odd_guard_skipped a Hrange). intros y Hy.
    apply in_parity_class in Hy. destruct Hy as [Hin Hp].
    rewrite has_parity_true in Hp. now apply Hall. }
  split; [|split; [|split; [|split]]].
  - intros n. unfold after_even. cbv zeta.
    now destruct (minEven (scan a) =? INT_MAX).
  - intros n. unfold solve_case. cbv zeta.
    now destruct (minOdd (scan a) =? INT_MAX).
  - rewrite (even_guard_exact a Hrange). split.
    + intros Hne. destruct (parity_class false a) as [|x l] eqn:E;
        [now destruct Hne|].
      assert (Hx : In x (parity_class false a)) by (rewrite E; now left).
      apply in_parity_class in Hx. destruct Hx as [Hin Hp].
      rewrite has_parity_false in Hp. apply negb_true_iff in Hp.
      now exists x.
    + intros (x & Hin & Hp) Hnil.
      assert (Hx : In x (parity_class false a)).
      { apply in_parity_class. now rewrite has_parity_false, Hp. }
      rewrite Hnil in Hx. destruct Hx.
  - rewrite (odd_guard_exact a Hrange). split.
    + intros (y & Hy & Hne). apply in_parity_class in Hy.
      destruct Hy as [Hin Hp]. rewrite has_parity_true in Hp. now exists y.
    + intros (x & Hin & Hp & Hne). exists x. split; [|exact Hne].
      apply in_parity_class. now rewrite has_parity_true.
  - intros Hall. specialize (Hskip Hall). split.
    + apply negb_false_iff in Hskip. now apply Z.eqb_eq.
    + intros n. unfold solve_case. cbv zeta. now rewrite Hskip.
Qed.

Lemma sentinel_guards_witness :
  In 2147483647 [2147483647; 2; 2147483647] /\
  is_odd 2147483647 = true /\
  minOdd (scan [2147483647; 2; 2147483647]) = INT_MAX /\
  solve_case 3 [2147483647; 2; 2147483647] =
    after_even 3 [2147483647; 2; 2147483647].
Proof.
  split; [now left|]. split; [reflexivity|].
  assert (Hr : Forall in_int [2147483647; 2; 2147483647]) by closed_range.
  destruct (sentinel_guards [2147483647; 2; 2147483647] Hr)
    as (_ & _ & _ & _ & Hall).
  destruct Hall as [Hmin Hsolve].
  - simpl. intros x [<-|[<-|[<-|[]]]] Hp;
      [reflexivity|discriminate Hp|reflexivity].
  - split; [exact Hmin|exact (Hsolve 3)].
Defined.

(** * Further properties of the program *)

(** ** Subsequences *)

Lemma subseq_refl (a : list Z) : subseq a a.
Proof. induction a; constructor; assumption. Qed.

Lemma subseq_In (b a : list Z) (x : Z) : subseq b a -> In x b -> In x a.
Proof.
  induction 1 as [|y b a _ IH|y b a _ IH]; simpl; intros Hx.
  - exact Hx.
  - destruct Hx as [->|Hx]; auto.
  - auto.
Qed.

Lemma subseq_length (b a : list Z) :
  subseq b a -> (length b <= length a)%nat.
Proof. induction 1; simpl; lia. Qed.

Lemma subseq_full (b a : list Z) :
  subseq b a -> length b = length a -> b = a.
Proof.
  induction 1 as [|y b a _ IH|y b a Hs IH]; simpl; intros Hlen.
  - reflexivity.
  - f_equal. apply IH. lia.
  - apply subseq_length in Hs. lia.
Qed.

Lemma subseq_filter (f : Z -> bool) (a : list Z) : subseq (filter f a) a.
Proof.
  induction a as [|x a IH]; simpl; [constructor|].
  destruct (f x); constructor; exact IH.
Qed.

(** A subsequence whose elements all satisfy [f] is no longer than the
    list of all elements satisfying [f]. *)
Lemma subseq_length_filter (f : Z -> bool) (b a : list Z) :
  subseq b a -> (forall x, In x b -> f x = true) ->
  (length b <= length (filter f a))%nat.
Proof.
  induction 1 as [|y b a _ IH|y b a _ IH]; simpl; intros Hf.
  - lia.
  - rewrite (Hf y (or_introl eq_refl)). simpl.
    apply le_n_S, IH. intros x Hx. apply Hf. now right.
  - specialize (IH Hf). destruct (f y); simpl; lia.
Qed.

Lemma kept_length (lo hi : Z) (a : list Z) :
  Z.of_nat (length (kept lo hi a)) =
  Z.of_nat (length a) - count_of (outside lo hi) a.
Proof.
  induction a as [|x a IH]; [reflexivity|].
  unfold kept in *. rewrite count_of_cons. cbn [filter].
  destruct (outside lo hi x); cbn [negb length]; lia.
Qed.

Lemma in_kept (lo hi : Z) (a : list Z) (x : Z) :
  In x (kept lo hi a) <-> In x a /\ lo <= x <= hi.
Proof.
  unfold kept. rewrite filter_In, negb_true_iff. unfold outside.
  rewrite orb_false_iff, Z.gtb_ltb, !Z.ltb_ge.
  split; intros [Hin H]; (split; [exact Hin|lia]).
Qed.

(** ** Characterising the extremes *)

Lemma min_of_intro (l : list Z) (m : Z) :
  In m l -> (forall x, In x l -> m <= x) -> min_of l = Some m.
Proof.
  intros Hin Hle.
  destruct (min_of l) as [m'|] eqn:E.
  - apply min_of_Some in E. destruct E as [Hin' Hle'].
    specialize (Hle m' Hin'). specialize (Hle' m Hin). f_equal. lia.
  - apply min_of_None in E. subst l. destruct Hin.
Qed.

Lemma max_of_intro (l : list Z) (m : Z) :
  In m l -> (forall x, In x l -> x <= m) -> max_of l = Some m.
Proof.
  intros Hin Hle.
  destruct (max_of l) as [m'|] eqn:E.
  - apply max_of_Some in E. destruct E as [Hin' Hle'].
    specialize (Hle m' Hin'). specialize (Hle' m Hin). f_equal. lia.
  - apply max_of_None in E. subst l. destruct Hin.
Qed.

Lemma same_parity_ends_spec (b : list Z) :
  same_parity_ends b = true <->
  exists lo hi, min_of b = Some lo /\ max_of b = Some hi /\
                Z.odd lo = Z.odd hi.
Proof.
  unfold same_parity_ends. split.
  - destruct (min_of b) as [lo|]; [|discriminate].
    destruct (max_of b) as [hi|]; [|discriminate].
    intros H. apply eqb_prop in H. now exists lo, hi.
  - intros (lo & hi & -> & -> & H). rewrite H. apply eqb_reflx.
Qed.

(** ** The answer against every way of removing elements *)

Section Optimal.

Variable a : list Z.
Hypothesis Hrange : Forall in_int a.
Hypothesis Hvis : odd_class_visible a.

Lemma answer_le_candidate (p : bool) :
  parity_class p a <> [] -> answer a <= interval_candidate a p.
Proof.
  intros Hp. rewrite (answer_by_classes a Hrange Hvis).
  apply is_empty_false in Hp.
  destruct p; rewrite Hp;
    [destruct (is_empty (parity_class false a))
    |destruct (is_empty (parity_class true a))]; lia.
Qed.

Lemma answer_is_candidate :
  a <> [] ->
  exists p, parity_class p a <> [] /\ answer a = interval_candidate a p.
Proof.
  intros Hne. rewrite (answer_by_classes a Hrange Hvis).
  destruct (is_empty (parity_class false a)) eqn:Ef;
    destruct (is_empty (parity_class true a)) eqn:Et.
  - apply is_empty_true in Ef, Et. destruct Hne. now apply classes_cover.
  - exists true. split; [now apply is_empty_false|reflexivity].
  - exists false. split; [now apply is_empty_false|reflexivity].
  - apply is_empty_false in Ef, Et.
    destruct (Z.min_spec (interval_candidate a false)
                (interval_candidate a true)) as [[_ ->]|[_ ->]];
      [exists false|exists true]; split; auto.
Qed.

(** Whatever is left with least and greatest element of one parity, at
    least [answer a] elements were removed. *)
Lemma removal_lower_bound (b : list Z) :
  subseq b a -> same_parity_ends b = true ->
  answer a <= Z.of_nat (length a) - Z.of_nat (length b).
Proof.
  intros Hsub Hends.
  apply same_parity_ends_spec in Hends.
  destruct Hends as (lo & hi & Hlo & Hhi & Hpar).
  apply min_of_Some in Hlo. apply max_of_Some in Hhi.
  destruct Hlo as [Hlo_in Hlo_le], Hhi as [Hhi_in Hhi_le].
  set (p := Z.odd lo).
  assert (Hclo : In lo (parity_class p a)).
  { apply in_parity_class. split; [now apply (subseq_In b)|].
    unfold has_parity, p. apply eqb_reflx. }
  assert (Hchi : In hi (parity_class p a)).
  { apply in_parity_class. split; [now apply (subseq_In b)|].
    unfold has_parity, p. rewrite Hpar. apply eqb_reflx. }
  assert (Hne : parity_class p a <> []).
  { intros Hnil. rewrite Hnil in Hclo. destruct Hclo. }
  pose proof (answer_le_candidate p Hne) as Hans.
  unfold interval_candidate in Hans.
  destruct (min_of_nonempty _ Hne) as [m Em].
  destruct (max_of_nonempty _ Hne) as [M EM].
  rewrite Em, EM in Hans.
  apply min_of_Some in Em. apply max_of_Some in EM.
  destruct Em as [_ Hm], EM as [_ HM].
  specialize (Hm lo Hclo). specialize (HM hi Hchi).
  assert (Hlen : (length b <= length (kept m M a))%nat).
  { apply subseq_length_filter; [exact Hsub|].
    intros x Hx. specialize (Hlo_le x Hx). specialize (Hhi_le x Hx).
    apply negb_true_iff. unfold outside.
    rewrite orb_false_iff, Z.gtb_ltb, !Z.ltb_ge. lia. }
  pose proof (kept_length m M a). lia.
Qed.

(** Removing exactly [answer a] elements is enough. *)
Lemma removal_attained :
  a <> [] ->
  exists b, subseq b a /\ same_parity_ends b = true /\
            Z.of_nat (length b) = Z.of_nat (length a) - answer a.
Proof.
  intros Hne.
  destruct (answer_is_candidate Hne) as (p & Hp & Hans).
  unfold interval_candidate in Hans.
  destruct (min_of_nonempty _ Hp) as [m Em].
  destruct (max_of_nonempty _ Hp) as [M EM].
  rewrite Em, EM in Hans.
  apply min_of_Some in Em. apply max_of_Some in EM.
  destruct Em as [Hm_in Hm], EM as [HM_in HM].
  pose proof (Hm M HM_in) as HmM.
  exists (kept m M a). split; [apply subseq_filter|]. split.
  - apply same_parity_ends_spec. exists m, M.
    apply in_parity_class in Hm_in, HM_in.
    destruct Hm_in as [Hma Hmp], HM_in as [HMa HMp].
    unfold has_parity in Hmp, HMp. apply eqb_prop in Hmp, HMp.
    split; [|split; [|congruence]].
    + apply min_of_intro; [apply in_kept; split; [exact Hma|lia]|].
      intros x Hx. apply in_kept in Hx. lia.
    + apply max_of_intro; [apply in_kept; split; [exact HMa|lia]|].
      intros x Hx. apply in_kept in Hx. lia.
  - rewrite kept_length. lia.
Qed.

Lemma answer_nonneg : 0 <= answer a.
Proof.
  rewrite (answer_by_classes a Hrange Hvis).
  pose proof (interval_candidate_bounds a false).
  pose proof (interval_candidate_bounds a true).
  destruct (is_empty (parity_class false a)),
    (is_empty (parity_class true a)); lia.
Qed.

End Optimal.

(** ** Order of the elements *)

Lemma fold_left_perm (A : Type) (f : A -> Z -> A) :
  (forall s x y, f (f s x) y = f (f s y) x) ->
  forall l l' : list Z, Permutation l l' ->
  forall s : A, fold_left f l s = fold_left f l' s.
Proof.
  intros Hcomm l l' Hperm.
  induction Hperm as [|x l l' _ IH|x y l|l l' l'' _ IH1 _ IH2]; intros s.
  - reflexivity.
  - simpl. apply IH.
  - simpl. now rewrite Hcomm.
  - now rewrite IH1.
Qed.

Lemma scan_step_comm (b : Bounds) (x y : Z) :
  scan_step (scan_step b x) y = scan_step (scan_step b y) x.
Proof.
  unfold scan_step.
  destruct (is_odd x), (is_odd y); simpl; f_equal; lia.
Qed.

Lemma count_step_comm (lo hi r x y : Z) :
  count_step lo hi (count_step lo hi r x) y =
  count_step lo hi (count_step lo hi r y) x.
Proof.
  unfold count_step.
  destruct ((x <? lo) || (x >? hi)), ((y <? lo) || (y >? hi)); lia.
Qed.

(** ** The loop and the rest of the input *)

Lemma main_loop_batch_rest (cases : list (list Z)) (rest : list Z) :
  forall (fuel : nat) (out : list Z),
    Z.of_nat (length cases) <= INT_MAX ->
    Forall valid_case cases ->
    (length cases < fuel)%nat ->
    main_loop fuel (Z.of_nat (length cases))
      (flat_map encode_case cases ++ rest) out
    = Done (out ++ map answer cases).
Proof.
  induction cases as [|c cases IH]; intros fuel out Hlen Hall Hfuel.
  - destruct fuel; [lia|]. simpl. now rewrite app_nil_r.
  - destruct fuel as [|fuel]; [simpl in Hfuel; lia|].
    inversion Hall as [|? ? Hc Hcs]; subst.
    cbn [main_loop flat_map length]. rewrite <- app_assoc.
    destruct (Z.eqb_spec (Z.of_nat (S (length cases))) 0) as [E0|E0]; [lia|].
    destruct (Z.ltb_spec (Z.of_nat (S (length cases)) - 1) INT_MIN)
      as [E1|E1]; [unfold INT_MIN in E1; lia|].
    rewrite (test_case_encode c _ Hc).
    replace (Z.of_nat (S (length cases)) - 1) with (Z.of_nat (length cases))
      by lia.
    rewrite IH; [|simpl length in Hlen; lia|assumption|simpl in Hfuel; lia].
    now rewrite <- app_assoc.
Qed.

(** ** The values the locals take *)

Lemma scan_in_int (a : list Z) :
  Forall in_int a ->
  in_int (minEven (scan a)) /\ in_int (maxEven (scan a)) /\
  in_int (minOdd (scan a)) /\ in_int (maxOdd (scan a)).
Proof.
  intros Hrange. unfold scan.
  rewrite scan_from_minEven, scan_from_maxEven,
    scan_from_minOdd, scan_from_maxOdd. simpl.
  assert (Hmin : forall p m, min_of (parity_class p a) = Some m -> in_int m).
  { intros p m E. apply min_of_Some in E.
    now apply (class_in_int a Hrange p). }
  assert (Hmax : forall p m, max_of (parity_class p a) = Some m -> in_int m).
  { intros p m E. apply max_of_Some in E.
    now apply (class_in_int a Hrange p). }
  repeat split;
    match goal with
    | |- context [min_of (parity_class ?p a)] =>
        destruct (min_of (parity_class p a)) as [m|] eqn:E;
        [specialize (Hmin p m E)|]
    | |- context [max_of (parity_class ?p a)] =>
        destruct (max_of (parity_class p a)) as [m|] eqn:E;
        [specialize (Hmax p m E)|]
    end; unfold in_int, INT_MIN, INT_MAX in *; lia.
Qed.

(** * Properties beyond the claims *)

(** X1.  On a non-empty vector of ints whose odd elements are not all
    [INT_MAX], the printed number is the least number of removals that
    leaves a sequence whose least and greatest element have the same
    parity: some choice of [answer a] removals does so, and no choice of
    fewer removals does. *)
Theorem answer_is_least_removal (a : list Z) :
  Forall in_int a -> odd_class_visible a -> a <> [] ->
  (exists b, subseq b a /\ same_parity_ends b = true /\
             Z.of_nat (length b) = Z.of_nat (length a) - answer a) /\
  (forall b, subseq b a -> same_parity_ends b = true ->
             answer a <= Z.of_nat (length a) - Z.of_nat (length b)).
Proof.
  intros Hrange Hvis Hne. split.
  - now apply removal_attained.
  - intros b. now apply removal_lower_bound.
Qed.

Lemma answer_is_least_removal_witness :
  exists b, subseq b [3; 1; 4; 1; 5; 9; 2] /\ same_parity_ends b = true /\
    Z.of_nat (length b) = 7 - answer [3; 1; 4; 1; 5; 9; 2].
Proof.
  refine (proj1 (answer_is_least_removal [3; 1; 4; 1; 5; 9; 2] _ _ _)).
  - closed_range.
  - intros _. exists 3. split; [now left|discriminate].
  - discriminate.
Defined.

(** X2.  On a vector of ints whose odd elements are not all [INT_MAX], the
    program prints 0 exactly when the vector is empty or its least and
    greatest element already have the same parity. *)
Theorem answer_zero_iff (a : list Z) :
  Forall in_int a -> odd_class_visible a ->
  (answer a = 0 <-> a = [] \/ same_parity_ends a = true).
Proof.
  intros Hrange Hvis. split.
  - intros H0. destruct a as [|x a']; [now left|right].
    destruct (removal_attained _ Hrange Hvis) as (b & Hsub & Hends & Hlen);
      [discriminate|].
    rewrite H0 in Hlen.
    assert (Hb : b = x :: a') by (apply subseq_full; [exact Hsub|lia]).
    now rewrite <- Hb.
  - intros [->|Hends]; [reflexivity|].
    pose proof (removal_lower_bound a Hrange Hvis a (subseq_refl a) Hends).
    pose proof (answer_nonneg a Hrange Hvis). lia.
Qed.

Lemma answer_zero_iff_witness :
  answer [4; 7; 10] = 0 <-> [4; 7; 10] = [] \/ same_parity_ends [4; 7; 10] = true.
Proof.
  apply (answer_zero_iff [4; 7; 10]).
  - closed_range.
  - intros _. exists 7. split; [now left|discriminate].
Defined.

(** X3.  The order of the elements does not matter: two vectors that are
    permutations of one another give the same four bounds, the same
    counters for every interval, and the same printed number. *)
Theorem answer_permutation (a b : list Z) :
  Permutation a b ->
  scan a = scan b /\
  (forall lo hi, count_outside lo hi a = count_outside lo hi b) /\
  answer a = answer b.
Proof.
  intros Hperm.
  assert (Hscan : scan a = scan b).
  { unfold scan, scan_from. apply fold_left_perm; [|exact Hperm].
    intros s x y. apply scan_step_comm. }
  assert (Hcount : forall lo hi, count_outside lo hi a = count_outside lo hi b).
  { intros lo hi. unfold count_outside, count_from.
    apply fold_left_perm; [|exact Hperm].
    intros s x y. apply count_step_comm. }
  split; [exact Hscan|]. split; [exact Hcount|].
  unfold answer, solve_case, after_even, removeEven, removeOdd.
  now rewrite (Permutation_length Hperm), Hscan, !Hcount.
Qed.

Lemma answer_permutation_witness : answer [1; 2; 3] = answer [3; 1; 2].
Proof.
  apply (answer_permutation [1; 2; 3] [3; 1; 2]).
  apply (perm_trans (perm_skip 1 (perm_swap 3 2 []))).
  apply (perm_swap 3 1 [2]).
Defined.

(** X4.  On a vector of ints whose odd elements are not all [INT_MAX], the
    program never prints more than half of [n]. *)
Theorem answer_at_most_half (a : list Z) :
  Forall in_int a -> odd_class_visible a ->
  2 * answer a <= Z.of_nat (length a).
Proof.
  intros Hrange Hvis. rewrite (answer_by_classes a Hrange Hvis).
  pose proof (interval_le_claimed a false) as Hf.
  pose proof (interval_le_claimed a true) as Ht.
  pose proof (length_split false a) as Hsplit. simpl negb in Hsplit.
  unfold claimed_candidate in Hf, Ht.
  destruct (is_empty (parity_class false a)) eqn:Ef;
    destruct (is_empty (parity_class true a)) eqn:Et;
    try (apply is_empty_true in Ef; rewrite Ef in *);
    try (apply is_empty_true in Et; rewrite Et in *);
    simpl length in *; lia.
Qed.

Lemma answer_at_most_half_witness : 2 * answer [5; 2; 8; 11] <= 4.
Proof.
  apply (answer_at_most_half [5; 2; 8; 11]).
  - closed_range.
  - intros _. exists 5. split; [now left|discriminate].
Defined.

(** X5.  On the token stream of a valid batch followed by any further
    tokens, and with more fuel than test cases, the program ends normally
    and prints the answers of the test cases in order, one per test case;
    the tokens after the last test case are never read. *)
Theorem main_ignores_trailing_tokens
  (cases : list (list Z)) (rest : list Z) (fuel : nat) :
  valid_batch cases -> (length cases < fuel)%nat ->
  main fuel (encode cases ++ rest) = Done (map answer cases).
Proof.
  intros [Hlen Hall] Hfuel. unfold main, encode.
  rewrite <- app_comm_cons. unfold read_int.
  rewrite (length_in_int _ cases Hlen).
  now rewrite main_loop_batch_rest.
Qed.

Lemma main_ignores_trailing_tokens_witness :
  main 3 (encode [[5; 2]; [7]] ++ [99; -4]) = Done (map answer [[5; 2]; [7]]).
Proof.
  apply (main_ignores_trailing_tokens [[5; 2]; [7]] [99; -4] 3).
  - closed_range.
  - simpl. lia.
Defined.

(** X7.  After the first pass over a vector of ints, the minimum and the
    maximum recorded for a parity that occurs are themselves elements of
    that parity, with the minimum not above the maximum; for a parity that
    does not occur they still hold [INT_MAX] and [INT_MIN]. *)
Theorem scan_attains_bounds (a : list Z) :
  Forall in_int a ->
  (parity_class false a <> [] ->
     In (minEven (scan a)) (parity_class false a) /\
     In (maxEven (scan a)) (parity_class false a) /\
     minEven (scan a) <= maxEven (scan a)) /\
  (parity_class true a <> [] ->
     In (minOdd (scan a)) (parity_class true a) /\
     In (maxOdd (scan a)) (parity_class true a) /\
     minOdd (scan a) <= maxOdd (scan a)) /\
  (parity_class false a = [] ->
     minEven (scan a) = INT_MAX /\ maxEven (scan a) = INT_MIN) /\
  (parity_class true a = [] ->
     minOdd (scan a) = INT_MAX /\ maxOdd (scan a) = INT_MIN).
Proof.
  intros Hrange. split; [|split; [|split]].
  - intros Hne.
    destruct (min_of_nonempty _ Hne) as [m Em].
    destruct (max_of_nonempty _ Hne) as [M EM].
    rewrite (scan_minEven_Some a Hrange m Em),
      (scan_maxEven_Some a Hrange M EM).
    apply min_of_Some in Em. apply max_of_Some in EM.
    destruct Em as [Hm Hle], EM as [HM _].
    repeat split; [exact Hm|exact HM|now apply Hle].
  - intros Hne.
    destruct (min_of_nonempty _ Hne) as [m Em].
    destruct (max_of_nonempty _ Hne) as [M EM].
    rewrite (scan_minOdd_Some a Hrange m Em),
      (scan_maxOdd_Some a Hrange M EM).
    apply min_of_Some in Em. apply max_of_Some in EM.
    destruct Em as [Hm Hle], EM as [HM _].
    repeat split; [exact Hm|exact HM|now apply Hle].
  - intros Hnil. unfold scan.
    now rewrite scan_from_minEven, scan_from_maxEven, Hnil.
  - intros Hnil. unfold scan.
    now rewrite scan_from_minOdd, scan_from_maxOdd, Hnil.
Qed.

Lemma scan_attains_bounds_witness :
  (In (minEven (scan [6; 3; 2])) (parity_class false [6; 3; 2]) /\
   In (maxEven (scan [6; 3; 2])) (parity_class false [6; 3; 2]) /\
   minEven (scan [6; 3; 2]) <= maxEven (scan [6; 3; 2])) /\
  (minOdd (scan [6; 2]) = INT_MAX /\ maxOdd (scan [6; 2]) = INT_MIN).
Proof.
  split.
  - apply (scan_attains_bounds [6; 3; 2]); [closed_range|discriminate].
  - apply (scan_attains_bounds [6; 2]); [closed_range|reflexivity].
Defined.

(** X8.  No [int] of a test case overflows: for a vector of ints with
    [n <= INT_MAX], the four bounds, the counter of either block after any
    number of iterations, and the printed number all fit an [int]. *)
Theorem test_case_fits_int (a : list Z) :
  valid_case a ->
  in_int (minEven (scan a)) /\ in_int (maxEven (scan a)) /\
  in_int (minOdd (scan a)) /\ in_int (maxOdd (scan a)) /\
  (forall lo hi k, in_int (count_outside lo hi (firstn k a))) /\
  in_int (answer a).
Proof.
  intros [Hn Hrange].
  destruct (scan_in_int a Hrange) as (H1 & H2 & H3 & H4).
  repeat (split; [assumption|]). split.
  - intros lo hi k. apply remove_fits_int.
    pose proof (firstn_le_length k a).
    pose proof (length_firstn k a). lia.
  - assert (He : in_int (removeEven a)) by now apply remove_fits_int.
    assert (Ho : in_int (removeOdd a)) by now apply remove_fits_int.
    unfold answer, solve_case, after_even. cbv zeta.
    unfold in_int, INT_MIN, INT_MAX in *.
    destruct (negb (minEven (scan a) =? 2147483647));
      destruct (negb (minOdd (scan a) =? 2147483647)); lia.
Qed.

Lemma test_case_fits_int_witness :
  in_int (answer [2147483647; -2147483648; 0]).
Proof.
  apply (test_case_fits_int [2147483647; -2147483648; 0]). closed_range.
Defined.
